(** * chalkbox: the live-refresh core (DynamicProgress task registry,
    Table expand decision, the default console)

    The package sources of chalkbox (chalkbox/components/dynamic_progress.py,
    chalkbox/components/table.py, chalkbox/core/console.py) are not part of
    this tree; only their demos and tests are.  The operations are therefore
    modelled from the specification (sections 3, 4.1, 4.3 and 9) and pinned
    against the tests in tests/test_dynamic_progress.py, tests/test_table.py
    and tests/test_console.py.

    Python exceptions are modelled by a state/exception monad that keeps the
    state reached when the exception is raised (no roll-back), so "the
    registry is unchanged" is a statement about the returned state. *)

From Stdlib Require Import ZArith Lia Sorting.Sorted.
From stdpp Require Import base gmap list strings.

Open Scope Z_scope.

(** ** Tasks and the registry *)

Module Registry.

(** A task entry of [DynamicProgress.tasks] / [completed_tasks]: the dict
    with keys description, total, completed, start_ms and, once finished,
    finish_ms and duration_ms.  Timestamps are milliseconds. *)
Record task := mk_task {
  tid : nat;
  description : string;
  total : option Z;
  completed : Z;
  start_ms : Z;
  finish_ms : option Z;
  duration_ms : option Z
}.

(** The registry: the session flag, the id counter, the active partition
    (the dict [tasks], keyed by id) and the completed partition (the list
    [completed_tasks]). *)
Record registry := mk_registry {
  running : bool;
  next_id : nat;
  tasks : gmap nat task;
  completed_tasks : list task
}.

Inductive error :=
| SessionNotStarted
| SessionAlreadyRunning
| UnknownTask (id : nat).

(** The state/exception monad: an exception keeps the state it was raised in. *)
Definition M (A : Type) := registry -> (error + A) * registry.

Definition ret {A} (a : A) : M A := fun s => (inr a, s).
Definition raise {A} (e : error) : M A := fun s => (inl e, s).
Definition bind {A B} (m : M A) (k : A -> M B) : M B :=
  fun s => match m s with
           | (inl e, s') => (inl e, s')
           | (inr a, s') => k a s'
           end.
Definition get : M registry := fun s => (inr s, s).
Definition put (s : registry) : M unit := fun _ => (inr tt, s).

Notation "x <- m ;; k" := (bind m (fun x => k))
  (at level 100, m at next level, right associativity).

Definition init_registry : registry :=
  mk_registry false 0 ∅ [].

(** The sort key of the completed list. *)
Definition dur (t : task) : Z :=
  match duration_ms t with Some d => d | None => 0 end.

(** Stable insert-in-order (section 4.1): the new task goes after every
    task whose duration is not larger. *)
Fixpoint insert_by_duration (t : task) (l : list task) : list task :=
  match l with
  | [] => [t]
  | x :: r => if Z.ltb (dur t) (dur x) then t :: x :: r
              else x :: insert_by_duration t r
  end.

(** Entering the session: Idle -> Running with fresh partitions; a second
    start while running is a programming error. *)
Definition start_session : M unit :=
  s <- get ;;
  if running s then raise SessionAlreadyRunning
  else put (mk_registry true 0 ∅ []).

(** Leaving the session: the loop stops; the partitions stay readable. *)
Definition close_session : M unit :=
  s <- get ;;
  put (mk_registry false (next_id s) (tasks s) (completed_tasks s)).

(** [add_task(description, total)]: needs a running session; allocates the
    next id, captures the start time, inserts into the active partition. *)
Definition add_task (desc : string) (tot : option Z) (now : Z) : M nat :=
  s <- get ;;
  if negb (running s) then raise SessionNotStarted
  else
    let id := next_id s in
    let t := mk_task id desc tot 0 now None None in
    _ <- put (mk_registry (running s) (S id) (<[id := t]> (tasks s))
                          (completed_tasks s)) ;;
    ret id.

(** Applying the deltas/overrides of one update call. *)
Definition apply_update (t : task) (advance comp tot : option Z)
    (desc : option string) : task :=
  let tot' := match tot with Some x => Some x | None => total t end in
  let c1 := match advance with Some a => completed t + a | None => completed t end in
  let c2 := match comp with Some c => c | None => c1 end in
  let d' := match desc with Some d => d | None => description t end in
  mk_task (tid t) d' tot' c2 (start_ms t) (finish_ms t) (duration_ms t).

(** [completed >= total], with [total] set. *)
Definition is_finished (t : task) : bool :=
  match total t with Some T => Z.leb T (completed t) | None => false end.

Definition finish (t : task) (now : Z) : task :=
  mk_task (tid t) (description t) (total t) (completed t) (start_ms t)
          (Some now) (Some (now - start_ms t)).

(** [update(id, advance, completed, total, description)]. *)
Definition update (id : nat) (advance comp tot : option Z)
    (desc : option string) (now : Z) : M unit :=
  s <- get ;;
  match tasks s !! id with
  | None => raise (UnknownTask id)
  | Some t =>
      let t1 := apply_update t advance comp tot desc in
      if is_finished t1 then
        put (mk_registry (running s) (next_id s) (delete id (tasks s))
                         (insert_by_duration (finish t1 now) (completed_tasks s)))
      else
        put (mk_registry (running s) (next_id s) (<[id := t1]> (tasks s))
                         (completed_tasks s))
  end.

(** [remove_task(id)]: fail-soft removal from the active partition. *)
Definition remove_task (id : nat) : M unit :=
  s <- get ;;
  match tasks s !! id with
  | None => ret tt
  | Some _ =>
      put (mk_registry (running s) (next_id s) (delete id (tasks s))
                       (completed_tasks s))
  end.

(** Calls made by the application; an exception raised by a call reaches
    the caller and the registry stays where the call left it. *)
Inductive op :=
| OpStart
| OpClose
| OpAdd (desc : string) (tot : option Z) (now : Z)
| OpUpdate (id : nat) (advance comp tot : option Z) (desc : option string) (now : Z)
| OpRemove (id : nat).

Definition exec_op (o : op) : M unit :=
  match o with
  | OpStart => start_session
  | OpClose => close_session
  | OpAdd d t n => _ <- add_task d t n ;; ret tt
  | OpUpdate i a c t d n => update i a c t d n
  | OpRemove i => remove_task i
  end.

Definition step (s : registry) (o : op) : registry := snd (exec_op o s).

Fixpoint run (ops : list op) (s : registry) : registry :=
  match ops with
  | [] => s
  | o :: os => run os (step s o)
  end.

Definition reachable (s : registry) : Prop := exists ops, s = run ops init_registry.

(** Observation: the ids of each partition. *)
Definition in_active (s : registry) (i : nat) : Prop := is_Some (tasks s !! i).
Definition in_completed (s : registry) (i : nat) : Prop :=
  In i (map tid (completed_tasks s)).

(** The registry invariant: active entries are keyed by their own id and
    were allocated, completed entries were allocated and are not active,
    completed ids are distinct, and the completed list is sorted by
    duration. *)
Definition reg_inv (s : registry) : Prop :=
  (forall i t, tasks s !! i = Some t -> tid t = i /\ (i < next_id s)%nat) /\
  (forall t, In t (completed_tasks s) ->
     (tid t < next_id s)%nat /\ tasks s !! tid t = None) /\
  NoDup (map tid (completed_tasks s)) /\
  StronglySorted (fun a b => dur a <= dur b) (completed_tasks s).

Lemma insert_by_duration_perm (t : task) (l : list task) :
  insert_by_duration t l ≡ₚ t :: l.
Proof.
  induction l as [|x r IH]; simpl; [done|].
  destruct (dur t <? dur x); [done|].
  rewrite IH. by constructor.
Qed.

Lemma insert_by_duration_In (t x : task) (l : list task) :
  In x (insert_by_duration t l) <-> x = t \/ In x l.
Proof.
  rewrite <- !list_elem_of_In, (insert_by_duration_perm t l).
  rewrite elem_of_cons. tauto.
Qed.

Lemma insert_by_duration_sorted (t : task) (l : list task) :
  StronglySorted (fun a b => dur a <= dur b) l ->
  StronglySorted (fun a b => dur a <= dur b) (insert_by_duration t l).
Proof.
  induction l as [|x r IH]; simpl; intros Hs.
  - repeat constructor.
  - inversion Hs as [|? ? Hr Hx]; subst.
    destruct (dur t <? dur x) eqn:E.
    + apply Z.ltb_lt in E. constructor; [done|].
      constructor; [lia|]. eapply Forall_impl; [exact Hx|]. simpl; lia.
    + apply Z.ltb_ge in E. constructor; [by apply IH|].
      apply Forall_forall. intros y Hy. apply list_elem_of_In in Hy.
      apply insert_by_duration_In in Hy as [->|Hy]; [lia|].
      apply list_elem_of_In in Hy. by apply (proj1 (Forall_forall _ _) Hx).
Qed.

Lemma init_inv : reg_inv init_registry.
Proof.
  unfold reg_inv; simpl. split; [|split; [|split]].
  - intros i t H. by rewrite lookup_empty in H.
  - intros t [].
  - constructor.
  - constructor.
Qed.

Lemma step_inv (s : registry) (o : op) : reg_inv s -> reg_inv (step s o).
Proof.
  destruct s as [r n m c].
  intros Hinv. pose proof Hinv as (H1 & H2 & H3 & H4). simpl in H1, H2, H3, H4.
  destruct o as [| |d tt0 now|id a cc tt0 d now|id];
    unfold step, exec_op, start_session, close_session, add_task, update,
      remove_task, bind, get, put, raise, ret; simpl.
  - (* start *)
    destruct r; simpl; [exact Hinv|]. apply init_inv.
  - (* close *)
    exact Hinv.
  - (* add_task *)
    destruct r; simpl; [|exact Hinv].
    unfold reg_inv; simpl. split; [|split; [|split]]; [| |done|done].
    + intros i t Hi. apply lookup_insert_Some in Hi as [[<- <-]|[Hne Hi]];
        [simpl; lia|]. apply H1 in Hi. lia.
    + intros t Ht. destruct (H2 t Ht) as [Hlt Hn]. split; [lia|].
      rewrite lookup_insert_ne; [done|]. simpl in Hlt. lia.
  - (* update *)
    destruct (m !! id) as [t|] eqn:E; simpl; [|exact Hinv].
    destruct (H1 id t E) as [Htid Hid].
    destruct (is_finished _); simpl; unfold reg_inv; simpl;
      (split; [|split; [|split]]).
    + intros i u Hi. apply lookup_delete_Some in Hi as [_ Hi]. by apply H1 in Hi.
    + intros u Hu. apply insert_by_duration_In in Hu as [->|Hu]; simpl.
      * rewrite Htid. split; [done|]. apply lookup_delete_eq.
      * destruct (H2 u Hu) as [Hlt Hn]. split; [done|].
        rewrite lookup_delete_None. by right.
    + rewrite (insert_by_duration_perm _ c). simpl. constructor; [|done].
      rewrite Htid. intros Hin. apply list_elem_of_In in Hin.
      apply in_map_iff in Hin as (u & Hu & Hin).
      destruct (H2 u Hin) as [_ Hn]. rewrite Hu in Hn. congruence.
    + by apply insert_by_duration_sorted.
    + intros i u Hi. apply lookup_insert_Some in Hi as [[<- <-]|[Hne Hi]];
        [simpl; by split|]. by apply H1 in Hi.
    + intros u Hu. destruct (H2 u Hu) as [Hlt Hn]. split; [done|].
      rewrite lookup_insert_ne; [done|]. congruence.
    + done.
    + done.
  - (* remove_task *)
    destruct (m !! id) as [t|] eqn:E; simpl; [|exact Hinv].
    unfold reg_inv; simpl. split; [|split; [|split]]; [| |done|done].
    + intros i u Hi. apply lookup_delete_Some in Hi as [_ Hi]. by apply H1 in Hi.
    + intros u Hu. destruct (H2 u Hu) as [Hlt Hn]. split; [done|].
      rewrite lookup_delete_None. by right.
Qed.

Lemma run_inv (ops : list op) (s : registry) : reg_inv s -> reg_inv (run ops s).
Proof.
  revert s. induction ops as [|o os IH]; intros s Hs; simpl; [done|].
  apply IH, step_inv, Hs.
Qed.

Lemma reachable_inv (s : registry) : reachable s -> reg_inv s.
Proof. intros [ops ->]. apply run_inv, init_inv. Qed.

Lemma strongly_sorted_before {A} (R : A -> A -> Prop) (l1 l2 l3 : list A) (a b : A) :
  StronglySorted R (l1 ++ a :: l2 ++ b :: l3) -> R a b.
Proof.
  induction l1 as [|x l1 IH]; simpl; intros Hs.
  - inversion Hs as [|? ? _ Hf]; subst.
    apply (proj1 (Forall_forall _ _) Hf). apply list_elem_of_In.
    apply in_or_app. right. left. done.
  - inversion Hs; subst. by apply IH.
Qed.

(** Small checks of the model: Scenario B of the specification (all three
    tasks start at 0 ms; T2 finishes at 30 ms, T3 at 55 ms, T1 at 80 ms). *)
Definition scenario_b : list op :=
  [OpStart; OpAdd "T1" (Some 100) 0; OpAdd "T2" (Some 100) 0; OpAdd "T3" (Some 100) 0;
   OpUpdate 1 None (Some 100) None None 30;
   OpUpdate 2 None (Some 100) None None 55;
   OpUpdate 0 None (Some 100) None None 80].

Example scenario_b_order :
  map description (completed_tasks (run scenario_b init_registry)) = ["T2"; "T3"; "T1"].
Proof. reflexivity. Qed.

Example scenario_b_durations :
  map dur (completed_tasks (run scenario_b init_registry)) = [30; 55; 80].
Proof. reflexivity. Qed.

(** ** Claims about the task registry *)

(** C1: in every reachable registry the completed list is sorted ascending
    by duration (if A appears before B then A.duration <= B.duration), and
    since durations are integral milliseconds, a task whose duration is
    smaller by any number of milliseconds appears before the other. *)
Theorem completed_sorted_by_duration (s : registry) :
  reachable s ->
  (forall (l1 l2 l3 : list task) (a b : task),
      completed_tasks s = l1 ++ a :: l2 ++ b :: l3 -> dur a <= dur b) /\
  (forall a b : task, In a (completed_tasks s) -> In b (completed_tasks s) ->
      dur a < dur b ->
      exists l1 l2 l3, completed_tasks s = l1 ++ a :: l2 ++ b :: l3).
Proof.
  intros Hr. destruct (reachable_inv s Hr) as (_ & _ & _ & Hs).
  assert (Hbefore : forall (l1 l2 l3 : list task) (a b : task),
      completed_tasks s = l1 ++ a :: l2 ++ b :: l3 -> dur a <= dur b).
  { intros l1 l2 l3 a b Heq. rewrite Heq in Hs.
    exact (strongly_sorted_before _ l1 l2 l3 a b Hs). }
  split; [exact Hbefore|].
  intros a b Ha Hb Hlt.
  destruct (in_split a _ Ha) as (x & y & Hxy).
  rewrite Hxy in Hb. apply in_app_or in Hb as [Hb|[<-|Hb]].
  - destruct (in_split b _ Hb) as (x1 & x2 & ->).
    assert (dur b <= dur a); [|lia].
    apply (Hbefore x1 x2 y). rewrite Hxy, <- app_assoc. done.
  - lia.
  - destruct (in_split b _ Hb) as (y1 & y2 & ->). by exists x, y1, y2.
Qed.

Lemma completed_sorted_by_duration_witness :
  reachable (run scenario_b init_registry) /\
  map dur (completed_tasks (run scenario_b init_registry)) = [30; 55; 80] /\
  (forall (l1 l2 l3 : list task) (a b : task),
      completed_tasks (run scenario_b init_registry) = l1 ++ a :: l2 ++ b :: l3 ->
      dur a <= dur b).
Proof.
  assert (Hr : reachable (run scenario_b init_registry)) by (exists scenario_b; done).
  split; [exact Hr|]. split; [reflexivity|].
  exact (proj1 (completed_sorted_by_duration _ Hr)).
Defined.

(** The ids of the current session, read off a trace: the ids returned by
    [add_task], and the ids passed to [remove_task] while they were in the
    active partition. A successful [start_session] begins a new session and
    forgets both. *)
Definition created_step (s : registry) (o : op) (acc : list nat) : list nat :=
  match o with
  | OpStart => match fst (start_session s) with inr _ => [] | inl _ => acc end
  | OpAdd d t n => match fst (add_task d t n s) with inr id => id :: acc | inl _ => acc end
  | _ => acc
  end.

Definition removed_step (s : registry) (o : op) (acc : list nat) : list nat :=
  match o with
  | OpStart => match fst (start_session s) with inr _ => [] | inl _ => acc end
  | OpRemove i => match tasks s !! i with Some _ => i :: acc | None => acc end
  | _ => acc
  end.

Fixpoint session_ids (f : registry -> op -> list nat -> list nat)
    (s : registry) (acc : list nat) (ops : list op) : list nat :=
  match ops with
  | [] => acc
  | o :: os => session_ids f (step s o) (f s o acc) os
  end.

Definition created_ids (ops : list op) : list nat :=
  session_ids created_step init_registry [] ops.
Definition removed_ids (ops : list op) : list nat :=
  session_ids removed_step init_registry [] ops.

(** Two sessions: ids 0 and 1 of the first are forgotten by the second
    [start_session]; in the second, id 0 is removed while active, and the
    removal of the completed id 1 does nothing. *)
Example session_ids_example :
  let ops := [OpStart; OpAdd "a" None 0; OpAdd "b" None 0; OpRemove 0; OpClose;
              OpStart; OpAdd "c" None 0; OpAdd "d" (Some 1) 0;
              OpUpdate 1 (Some 1) None None None 5; OpRemove 0; OpRemove 1] in
  created_ids ops = [1; 0]%nat /\ removed_ids ops = [0%nat] /\
  in_completed (run ops init_registry) 1.
Proof. split; [reflexivity|]. split; [reflexivity|]. vm_compute. left. reflexivity. Qed.






(** An id that was never allocated, or whose task completed, is not active. *)
Lemma not_active_of_unknown (s : registry) (id : nat) :
  reg_inv s -> (next_id s <= id)%nat \/ in_completed s id -> tasks s !! id = None.
Proof.
  intros (H1 & H2 & _ & _) [Hge|Hc].
  - destruct (tasks s !! id) as [t|] eqn:E; [|done].
    apply H1 in E. lia.
  - apply in_map_iff in Hc as (u & <- & Hu). by apply H2.
Qed.

Definition demo_ops : list op :=
  [OpStart; OpAdd "Fast task" (Some 100) 0; OpAdd "Slow task" (Some 100) 0;
   OpUpdate 0 None (Some 100) None None 10].

(** C3: an update that brings an active task with a total to
    [completed >= total] succeeds, removes the task from the active
    partition, captures [finish_ms = now] and [duration_ms = now - start_ms],
    and inserts it by duration into the completed list, which stays sorted
    and holds the id exactly once. *)
Theorem update_completes_task (s : registry) (id : nat) (t : task)
    (adv cc tot : option Z) (d : option string) (now T : Z) :
  reachable s ->
  tasks s !! id = Some t ->
  total (apply_update t adv cc tot d) = Some T ->
  T <= completed (apply_update t adv cc tot d) ->
  let t1 := apply_update t adv cc tot d in
  let s' := snd (update id adv cc tot d now s) in
  fst (update id adv cc tot d now s) = inr tt /\
  tasks s' !! id = None /\
  completed_tasks s' = insert_by_duration (finish t1 now) (completed_tasks s) /\
  tid (finish t1 now) = id /\
  finish_ms (finish t1 now) = Some now /\
  duration_ms (finish t1 now) = Some (now - start_ms t) /\
  In id (map tid (completed_tasks s')) /\
  NoDup (map tid (completed_tasks s')) /\
  StronglySorted (fun a b => dur a <= dur b) (completed_tasks s').
Proof.
  intros Hr Ht HT Hle t1 s'.
  assert (Hfin : is_finished t1 = true).
  { unfold is_finished, t1. rewrite HT. by apply Z.leb_le. }
  assert (Hinv' : reg_inv s').
  { apply reachable_inv in Hr. exact (step_inv s (OpUpdate id adv cc tot d now) Hr). }
  destruct Hinv' as (_ & _ & Hnd & Hsort).
  destruct (reachable_inv s Hr) as (H1 & _).
  destruct (H1 id t Ht) as [Htid _].
  unfold s', update, bind, get, put, raise in *. rewrite Ht in *. simpl in *.
  fold t1 in Hnd, Hsort |- *. rewrite Hfin in *. simpl in *.
  repeat split; try done.
  - apply lookup_delete_eq.
  - apply in_map_iff. exists (finish t1 now). split; [done|].
    apply insert_by_duration_In. by left.
Qed.

Lemma update_completes_task_witness :
  reachable (run demo_ops init_registry) /\
  tasks (run demo_ops init_registry) !! 1%nat =
    Some (mk_task 1 "Slow task" (Some 100) 0 0 None None) /\
  total (apply_update (mk_task 1 "Slow task" (Some 100) 0 0 None None)
           None (Some 100) None None) = Some 100 /\
  100 <= completed (apply_update (mk_task 1 "Slow task" (Some 100) 0 0 None None)
           None (Some 100) None None) /\
  completed_tasks (snd (update 1 None (Some 100) None None 25
                         (run demo_ops init_registry))) =
    insert_by_duration
      (finish (apply_update (mk_task 1 "Slow task" (Some 100) 0 0 None None)
                 None (Some 100) None None) 25)
      (completed_tasks (run demo_ops init_registry)).
Proof.
  assert (Hr : reachable (run demo_ops init_registry)) by (exists demo_ops; done).
  assert (Ht : tasks (run demo_ops init_registry) !! 1%nat =
    Some (mk_task 1 "Slow task" (Some 100) 0 0 None None)) by (vm_compute; reflexivity).
  split; [exact Hr|]. split; [exact Ht|]. split; [reflexivity|]. split; [simpl; lia|].
  assert (Hle : 100 <= completed (apply_update (mk_task 1 "Slow task" (Some 100) 0 0 None None)
           None (Some 100) None None)) by (simpl; lia).
  exact (proj1 (proj2 (proj2 (update_completes_task _ 1 _ None (Some 100) None None 25 100
           Hr Ht eq_refl Hle)))).
Defined.

(** C4: in a reachable registry, [update] with an id that was never
    allocated or whose task has completed raises the unknown-task error and
    leaves the registry (both partitions) unchanged. *)
Theorem update_unknown_fails (s : registry) (id : nat)
    (adv cc tot : option Z) (d : option string) (now : Z) :
  reachable s ->
  (next_id s <= id)%nat \/ in_completed s id ->
  update id adv cc tot d now s = (inl (UnknownTask id), s).
Proof.
  intros Hr Hu.
  pose proof (not_active_of_unknown s id (reachable_inv s Hr) Hu) as Hn.
  unfold update, bind, get, raise. by rewrite Hn.
Qed.

Lemma update_unknown_fails_witness :
  reachable (run demo_ops init_registry) /\
  in_completed (run demo_ops init_registry) 0 /\
  update 0 (Some 10) None None None 40 (run demo_ops init_registry) =
    (inl (UnknownTask 0), run demo_ops init_registry) /\
  update 999 (Some 10) None None None 40 (run demo_ops init_registry) =
    (inl (UnknownTask 999), run demo_ops init_registry).
Proof.
  assert (Hr : reachable (run demo_ops init_registry)) by (exists demo_ops; done).
  assert (Hc : in_completed (run demo_ops init_registry) 0)
    by (unfold in_completed; vm_compute; left; reflexivity).
  split; [exact Hr|]. split; [exact Hc|]. split.
  - exact (update_unknown_fails _ 0 (Some 10) None None None 40 Hr (or_intror Hc)).
  - apply (update_unknown_fails _ 999 (Some 10) None None None 40 Hr).
    left. vm_compute. lia.
Defined.

(** C5: [add_task] on a registry whose session is not running raises the
    session-not-started error and creates nothing; the registry is not
    running before the first start and after every close. *)
Theorem add_task_needs_session (s : registry) (desc : string) (tot : option Z) (now : Z) :
  running s = false ->
  add_task desc tot now s = (inl SessionNotStarted, s) /\
  running init_registry = false /\
  (forall s0 : registry, running (step s0 OpClose) = false).
Proof.
  intros Hrun. split; [|split; [done|]].
  - unfold add_task, bind, get, raise. by rewrite Hrun.
  - intros s0. done.
Qed.

Lemma add_task_needs_session_witness :
  add_task "Test task" None 0 init_registry = (inl SessionNotStarted, init_registry) /\
  add_task "Test task" None 7 (run (demo_ops ++ [OpClose]) init_registry) =
    (inl SessionNotStarted, run (demo_ops ++ [OpClose]) init_registry).
Proof.
  split.
  - exact (proj1 (add_task_needs_session init_registry "Test task" None 0 eq_refl)).
  - apply (add_task_needs_session (run (demo_ops ++ [OpClose]) init_registry)
             "Test task" None 7).
    vm_compute. reflexivity.
Defined.

(** C6: [remove_task] of an active task removes it from the active
    partition, leaves the completed list as it was, and the id is then in
    neither partition; with any id not in the active partition (never
    allocated, already completed, or already removed) it raises nothing and
    leaves the registry unchanged. *)
Theorem remove_task_spec (s : registry) (id : nat) :
  reachable s ->
  (in_active s id ->
     let s' := snd (remove_task id s) in
     fst (remove_task id s) = inr tt /\
     tasks s' = delete id (tasks s) /\
     completed_tasks s' = completed_tasks s /\
     ~ in_active s' id /\ ~ in_completed s' id) /\
  (~ in_active s id -> remove_task id s = (inr tt, s)).
Proof.
  intros Hr. pose proof (reachable_inv s Hr) as Hinv.
  split.
  - intros [t Ht]. destruct Hinv as (_ & H2 & _).
    unfold remove_task, bind, get, put. rewrite Ht. simpl.
    split; [done|]. split; [done|]. split; [done|]. split.
    + unfold in_active. simpl. rewrite lookup_delete_eq. intros [? H]; discriminate H.
    + unfold in_completed. simpl. intros Hc.
      apply in_map_iff in Hc as (u & Hu & Hin). destruct (H2 u Hin) as [_ Hn].
      rewrite Hu in Hn. congruence.
  - intros Hna. unfold in_active in Hna.
    unfold remove_task, bind, get, ret.
    destruct (tasks s !! id) eqn:E; [exfalso; apply Hna; by eexists|done].
Qed.

(** Removing the same task twice: the second call finds the id unknown. *)
Definition demo_remove_twice : list op := demo_ops ++ [OpRemove 1].

Lemma remove_task_spec_witness :
  reachable (run demo_ops init_registry) /\
  in_active (run demo_ops init_registry) 1 /\
  ~ in_active (snd (remove_task 1 (run demo_ops init_registry))) 1 /\
  remove_task 0 (run demo_ops init_registry) = (inr tt, run demo_ops init_registry) /\
  remove_task 1 (run demo_remove_twice init_registry) =
    (inr tt, run demo_remove_twice init_registry).
Proof.
  assert (Hr : reachable (run demo_ops init_registry)) by (exists demo_ops; done).
  assert (Hr2 : reachable (run demo_remove_twice init_registry))
    by (exists demo_remove_twice; done).
  assert (Ha : in_active (run demo_ops init_registry) 1)
    by (unfold in_active; vm_compute; eexists; reflexivity).
  assert (Hc : ~ in_active (run demo_ops init_registry) 0)
    by (unfold in_active; vm_compute; intros [? H]; discriminate H).
  assert (Hc2 : ~ in_active (run demo_remove_twice init_registry) 1)
    by (unfold in_active; vm_compute; intros [? H]; discriminate H).
  split; [exact Hr|]. split; [exact Ha|]. split; [|split].
  - exact (proj1 (proj2 (proj2 (proj2 (proj1 (remove_task_spec _ 1 Hr) Ha))))).
  - exact (proj2 (remove_task_spec _ 0 Hr) Hc).
  - exact (proj2 (remove_task_spec _ 1 Hr2) Hc2).
Defined.

(** C10 counterexample: a task added with [total = 0] is active with
    [completed = 0 >= total]; an update that only sets a new description
    completes it and moves it to the completed list. *)
Lemma update_description_counterexample :
  let s := run [OpStart; OpAdd "Original" (Some 0) 0] init_registry in
  let s' := snd (update 0 None None None (Some "Updated") 5 s) in
  in_active s 0 /\ ~ in_active s' 0 /\
  completed_tasks s = [] /\ map description (completed_tasks s') = ["Updated"].
Proof.
  unfold in_active. vm_compute.
  split; [eexists; reflexivity|]. split; [intros [? H]; discriminate H|].
  split; reflexivity.
Qed.

(** C10 (as the code behaves): an update that only changes the
    description and/or advances [completed], after which the task is not
    finished (total unset or [completed < total]), keeps the task active
    with its id, total, start and finish fields; only description and
    completed change; the other active tasks and the completed list are
    unchanged. *)
Theorem update_in_place (s : registry) (id : nat) (t : task)
    (adv : option Z) (d : option string) (now : Z) :
  tasks s !! id = Some t ->
  is_finished (apply_update t adv None None d) = false ->
  let s' := snd (update id adv None None d now s) in
  fst (update id adv None None d now s) = inr tt /\
  completed_tasks s' = completed_tasks s /\
  (forall j, j <> id -> tasks s' !! j = tasks s !! j) /\
  exists t', tasks s' !! id = Some t' /\
    tid t' = tid t /\ total t' = total t /\ start_ms t' = start_ms t /\
    finish_ms t' = finish_ms t /\ duration_ms t' = duration_ms t /\
    description t' = match d with Some x => x | None => description t end /\
    completed t' = match adv with Some a => completed t + a | None => completed t end.
Proof.
  intros Ht Hnf s'.
  unfold s', update, bind, get, put. rewrite Ht. simpl. rewrite Hnf. simpl.
  split; [done|]. split; [done|]. split.
  - intros j Hj. by rewrite lookup_insert_ne.
  - eexists. split; [apply lookup_insert_eq|]. simpl.
    repeat split; destruct adv; done.
Qed.

Lemma update_in_place_witness :
  let s := run [OpStart; OpAdd "Original" (Some 100) 0] init_registry in
  tasks s !! 0%nat = Some (mk_task 0 "Original" (Some 100) 0 0 None None) /\
  is_finished (apply_update (mk_task 0 "Original" (Some 100) 0 0 None None)
                 (Some 50) None None (Some "Updated")) = false /\
  completed_tasks (snd (update 0 (Some 50) None None (Some "Updated") 3 s)) = [].
Proof.
  intros s.
  assert (Ht : tasks s !! 0%nat = Some (mk_task 0 "Original" (Some 100) 0 0 None None))
    by (vm_compute; reflexivity).
  split; [exact Ht|]. split; [reflexivity|].
  exact (proj1 (proj2 (update_in_place s 0 _ (Some 50) (Some "Updated") 3 Ht eq_refl))).
Defined.

(** ** Further properties of the registry *)

(** [add_task] in a running session hands out the next counter value: an
    id found in neither partition; the new entry holds the description, the
    total, [completed = 0] and the start time, and nothing else changes. *)
Theorem add_task_fresh_id (s : registry) (desc : string) (tot : option Z) (now : Z) :
  reachable s ->
  running s = true ->
  let s' := snd (add_task desc tot now s) in
  fst (add_task desc tot now s) = inr (next_id s) /\
  ~ in_active s (next_id s) /\ ~ in_completed s (next_id s) /\
  tasks s' !! next_id s = Some (mk_task (next_id s) desc tot 0 now None None) /\
  (forall j, j <> next_id s -> tasks s' !! j = tasks s !! j) /\
  completed_tasks s' = completed_tasks s /\
  next_id s' = S (next_id s).
Proof.
  intros Hr Hrun s'.
  pose proof (not_active_of_unknown s (next_id s) (reachable_inv s Hr)
                (or_introl (le_n _))) as Hn.
  destruct (reachable_inv s Hr) as (_ & H2 & _).
  unfold s', add_task, bind, get, put, ret, raise. rewrite Hrun. simpl.
  split; [done|]. split; [unfold in_active; rewrite Hn; intros [? H]; discriminate H|].
  split.
  - intros Hc. apply in_map_iff in Hc as (u & Hu & Hin).
    destruct (H2 u Hin) as [Hlt _]. lia.
  - split; [apply lookup_insert_eq|]. split; [|done].
    intros j Hj. by rewrite lookup_insert_ne.
Qed.

Lemma add_task_fresh_id_witness :
  let s := run demo_ops init_registry in
  reachable s /\ running s = true /\
  fst (add_task "Third" (Some 10) 40 s) = inr 2%nat.
Proof.
  intros s.
  assert (Hr : reachable s) by (exists demo_ops; done).
  assert (Hrun : running s = true) by reflexivity.
  split; [exact Hr|]. split; [exact Hrun|].
  exact (proj1 (add_task_fresh_id s "Third" (Some 10) 40 Hr Hrun)).
Defined.

(** The loop of the DynamicProgress demos: [progress.update(id, advance=1)]
    once per clock reading of [times]. *)
Fixpoint advance_each (id : nat) (times : list Z) : M unit :=
  match times with
  | [] => ret tt
  | now :: r => _ <- update id (Some 1) None None None now ;; advance_each id r
  end.

Definition with_completed (t : task) (c : Z) : task :=
  mk_task (tid t) (description t) (total t) c (start_ms t) (finish_ms t) (duration_ms t).

Lemma advance_each_app (id : nat) (ts : list Z) (now : Z) (s : registry) :
  advance_each id (ts ++ [now]) s =
  bind (advance_each id ts) (fun _ => update id (Some 1) None None None now) s.
Proof.
  revert s. induction ts as [|n r IH]; intros s; simpl; unfold bind, ret in *.
  - destruct (update id (Some 1) None None None now s) as [[e|[]] s']; reflexivity.
  - destruct (update id (Some 1) None None None n s) as [[e|[]] s1]; [reflexivity|].
    apply IH.
Qed.

Lemma advance_each_active (id : nat) (ts : list Z) (s : registry) (t : task) (N : Z) :
  tasks s !! id = Some t -> total t = Some N ->
  completed t + Z.of_nat (length ts) < N ->
  let s' := snd (advance_each id ts s) in
  fst (advance_each id ts s) = inr tt /\
  tasks s' !! id = Some (with_completed t (completed t + Z.of_nat (length ts))) /\
  (forall j, j <> id -> tasks s' !! j = tasks s !! j) /\
  completed_tasks s' = completed_tasks s /\
  next_id s' = next_id s /\ running s' = running s.
Proof.
  revert s t. induction ts as [|n r IH]; intros s t Ht HN Hlt; simpl.
  - rewrite Z.add_0_r, Ht. destruct t; done.
  - simpl in Hlt.
    set (t1 := apply_update t (Some 1) None None None).
    assert (Hnf : is_finished t1 = false).
    { unfold is_finished, t1. simpl. rewrite HN. apply Z.leb_gt. lia. }
    unfold bind at 1, update, bind, get, put, raise. rewrite Ht. simpl.
    fold t1. rewrite Hnf. simpl.
    set (s1 := mk_registry (running s) (next_id s) (<[id:=t1]> (tasks s))
                 (completed_tasks s)).
    assert (Ht1 : tasks s1 !! id = Some t1) by apply lookup_insert_eq.
    destruct (IH s1 t1 Ht1 HN ltac:(unfold t1; simpl; lia))
      as (H1 & H2 & H3 & H4 & H5 & H6).
    split; [exact H1|]. split.
    + rewrite H2. unfold with_completed, t1. simpl. do 2 f_equal. lia.
    + split; [|split; [exact H4|split; [exact H5|exact H6]]].
      intros j Hj. rewrite (H3 j Hj). unfold s1. simpl. by rewrite lookup_insert_ne.
Qed.

(** The advance-by-one loop of the demos: an active task with a total [N]
    advanced once per clock reading stays active, with [completed] counting
    the calls, as long as it stays below [N]; the call that reaches [N]
    moves it, finished at that call's time, into the completed list. *)
Theorem advance_loop_completes (id : nat) (ts : list Z) (now : Z) (s : registry)
    (t : task) (N : Z) :
  tasks s !! id = Some t -> total t = Some N ->
  completed t + Z.of_nat (length ts) + 1 = N ->
  (let s' := snd (advance_each id ts s) in
   fst (advance_each id ts s) = inr tt /\
   tasks s' !! id = Some (with_completed t (completed t + Z.of_nat (length ts))) /\
   completed_tasks s' = completed_tasks s) /\
  (let s'' := snd (advance_each id (ts ++ [now]) s) in
   fst (advance_each id (ts ++ [now]) s) = inr tt /\
   tasks s'' !! id = None /\
   completed_tasks s'' =
     insert_by_duration (finish (with_completed t N) now) (completed_tasks s)).
Proof.
  intros Ht HN Heq.
  destruct (advance_each_active id ts s t N Ht HN ltac:(lia))
    as (H1 & H2 & H3 & H4 & H5 & H6).
  split; [split; [exact H1|split; [exact H2|exact H4]]|].
  assert (Hsplit : advance_each id (ts ++ [now]) s =
    update id (Some 1) None None None now (snd (advance_each id ts s))).
  { rewrite advance_each_app. unfold bind at 1.
    destruct (advance_each id ts s) as [r1 s1]. simpl in H1. by subst r1. }
  rewrite Hsplit. clear Hsplit.
  unfold update, bind, get, put, raise. rewrite H2. simpl.
  assert (Happ : apply_update (with_completed t (completed t + Z.of_nat (length ts)))
                  (Some 1) None None None = with_completed t N)
    by (unfold apply_update, with_completed; simpl; f_equal; lia).
  assert (Hf : is_finished (with_completed t N) = true)
    by (unfold is_finished, with_completed; simpl; rewrite HN; apply Z.leb_refl).
  rewrite Happ, Hf. simpl.
  split; [done|]. split; [apply lookup_delete_eq|]. by rewrite H4.
Qed.

Lemma advance_loop_completes_witness :
  let s := run [OpStart; OpAdd "Processing batch" (Some 5) 0] init_registry in
  tasks s !! 0%nat = Some (mk_task 0 "Processing batch" (Some 5) 0 0 None None) /\
  completed_tasks (snd (advance_each 0 ([300; 600; 900; 1200] ++ [1500]) s)) =
    [finish (mk_task 0 "Processing batch" (Some 5) 5 0 None None) 1500].
Proof.
  intros s.
  assert (Ht : tasks s !! 0%nat = Some (mk_task 0 "Processing batch" (Some 5) 0 0 None None))
    by (vm_compute; reflexivity).
  split; [exact Ht|].
  exact (proj2 (proj2 (proj2 (advance_loop_completes 0 [300; 600; 900; 1200] 1500 s _ 5
           Ht eq_refl ltac:(simpl; lia))))).
Defined.

(** Once completed, a task stays in the completed list (unchanged) and
    never becomes active again, under every call but a new session start. *)
Theorem completed_stays_completed (s : registry) (o : op) (t : task) :
  reachable s ->
  o <> OpStart ->
  In t (completed_tasks s) ->
  In t (completed_tasks (step s o)) /\ ~ in_active (step s o) (tid t).
Proof.
  intros Hr Ho Ht.
  assert (Hinv' : reg_inv (step s o)) by exact (step_inv s o (reachable_inv s Hr)).
  assert (Hin : In t (completed_tasks (step s o))).
  { destruct s as [r n m c].
    destruct o as [| |d tt0 now|id a cc tt0 d now|id];
      unfold step, exec_op, start_session, close_session, add_task, update,
        remove_task, bind, get, put, raise, ret; simpl in *; [done| exact Ht| | |].
    - destruct r; exact Ht.
    - destruct (m !! id) as [u|]; simpl; [|exact Ht].
      destruct (is_finished _); simpl; [|exact Ht].
      apply insert_by_duration_In. by right.
    - destruct (m !! id) as [u|]; exact Ht. }
  split; [exact Hin|].
  destruct Hinv' as (_ & H2 & _). destruct (H2 t Hin) as [_ Hn].
  unfold in_active. rewrite Hn. intros [? H]; discriminate H.
Qed.

Lemma completed_stays_completed_witness :
  let s := run demo_ops init_registry in
  reachable s /\ In (finish (mk_task 0 "Fast task" (Some 100) 100 0 None None) 10)
                       (completed_tasks s) /\
  ~ in_active (step s (OpUpdate 1 None (Some 100) None None 20)) 0.
Proof.
  intros s.
  assert (Hr : reachable s) by (exists demo_ops; done).
  assert (Ht : In (finish (mk_task 0 "Fast task" (Some 100) 100 0 None None) 10)
                  (completed_tasks s)) by (vm_compute; left; reflexivity).
  split; [exact Hr|]. split; [exact Ht|].
  exact (proj2 (completed_stays_completed s (OpUpdate 1 None (Some 100) None None 20) _
           Hr ltac:(discriminate) Ht)).
Defined.

(** The clock reading an operation takes. *)
Definition op_time (o : op) : option Z :=
  match o with
  | OpAdd _ _ n => Some n
  | OpUpdate _ _ _ _ _ n => Some n
  | _ => None
  end.

(** The clock readings of a trace never go backwards from [c]. *)
Fixpoint clock_monotone (c : Z) (ops : list op) : Prop :=
  match ops with
  | [] => True
  | o :: r =>
      match op_time o with
      | Some n => c <= n /\ clock_monotone n r
      | None => clock_monotone c r
      end
  end.

Definition timed_inv (c : Z) (s : registry) : Prop :=
  (forall i t, tasks s !! i = Some t ->
     start_ms t <= c /\ finish_ms t = None /\ duration_ms t = None) /\
  (forall t, In t (completed_tasks s) ->
     exists f, finish_ms t = Some f /\ duration_ms t = Some (f - start_ms t) /\
               start_ms t <= f /\ f <= c).

Lemma timed_inv_mono (c c' : Z) (s : registry) :
  c <= c' -> timed_inv c s -> timed_inv c' s.
Proof.
  intros Hc [Ha Hd]. split.
  - intros i t Hi. destruct (Ha i t Hi) as (? & ? & ?). split; [lia|done].
  - intros t Ht. destruct (Hd t Ht) as (f & ? & ? & ? & ?). exists f. split_and!; auto; lia.
Qed.

Lemma step_timed (c : Z) (s : registry) (o : op) :
  timed_inv c s ->
  (forall n, op_time o = Some n -> c <= n) ->
  timed_inv (match op_time o with Some n => n | None => c end) (step s o).
Proof.
  destruct s as [r n0 m cl]. intros [Ha Hd] Hle.
  destruct o as [| |d tt0 now|id a cc tt0 d now|id]; simpl in Hle |- *;
    unfold step, exec_op, start_session, close_session, add_task, update,
      remove_task, bind, get, put, raise, ret; simpl.
  - destruct r; simpl; [by split|].
    split; [intros i t Hi; simpl in Hi; by rewrite lookup_empty in Hi|intros t []].
  - by split.
  - specialize (Hle now eq_refl).
    destruct r; simpl; [|apply (timed_inv_mono c); [done|by split]].
    split; simpl.
    + intros i t Hi. apply lookup_insert_Some in Hi as [[_ <-]|[_ Hi]]; [simpl; split_and!; [lia|done|done]|].
      destruct (Ha i t Hi) as (? & ? & ?). split; [lia|done].
    + intros t Ht. destruct (Hd t Ht) as (f & ? & ? & ? & ?). exists f.
      split_and!; auto; lia.
  - specialize (Hle now eq_refl).
    destruct (m !! id) as [u|] eqn:E; simpl;
      [|apply (timed_inv_mono c); [done|by split]].
    destruct (Ha id u E) as (Hs & Hf & Hdu).
    destruct (is_finished _); simpl; split; simpl.
    + intros i t Hi. apply lookup_delete_Some in Hi as [_ Hi].
      destruct (Ha i t Hi) as (? & ? & ?). split; [lia|done].
    + intros t Ht. apply insert_by_duration_In in Ht as [->|Ht].
      * exists now. simpl. split_and!; auto; lia.
      * destruct (Hd t Ht) as (f & ? & ? & ? & ?). exists f. split_and!; auto; lia.
    + intros i t Hi. apply lookup_insert_Some in Hi as [[_ <-]|[_ Hi]];
        [simpl; split_and!; auto; lia|].
      destruct (Ha i t Hi) as (? & ? & ?). split; [lia|done].
    + intros t Ht. destruct (Hd t Ht) as (f & ? & ? & ? & ?). exists f.
      split_and!; auto; lia.
  - destruct (m !! id) as [u|] eqn:E; simpl; [|by split].
    split; simpl.
    + intros i t Hi. apply lookup_delete_Some in Hi as [_ Hi]. by apply (Ha i t).
    + exact Hd.
Qed.

Lemma run_timed (ops : list op) (c : Z) (s : registry) :
  timed_inv c s -> clock_monotone c ops -> exists c', timed_inv c' (run ops s).
Proof.
  revert c s. induction ops as [|o r IH]; intros c s Hs Hm; simpl; [by exists c|].
  simpl in Hm. destruct (op_time o) as [n|] eqn:E.
  - destruct Hm as [Hcn Hm].
    pose proof (step_timed c s o Hs ltac:(intros n' Hn'; congruence)) as Hst.
    rewrite E in Hst. exact (IH n _ Hst Hm).
  - pose proof (step_timed c s o Hs ltac:(intros n' Hn'; congruence)) as Hst.
    rewrite E in Hst. exact (IH c _ Hst Hm).
Qed.

(** When the clock readings of the calls never go backwards, every
    completed task has a finish time not before its start and a duration
    equal to finish minus start, hence never negative. *)
Theorem completed_duration_nonneg (c0 : Z) (ops : list op) :
  clock_monotone c0 ops ->
  forall t, In t (completed_tasks (run ops init_registry)) ->
    exists f, finish_ms t = Some f /\ duration_ms t = Some (f - start_ms t) /\
              0 <= dur t.
Proof.
  intros Hm t Ht.
  assert (H0 : timed_inv c0 init_registry).
  { split; [intros i u Hi; simpl in Hi; by rewrite lookup_empty in Hi|intros u []]. }
  destruct (run_timed ops c0 init_registry H0 Hm) as (c' & _ & Hd).
  destruct (Hd t Ht) as (f & Hf & Hdu & Hle & _).
  exists f. split; [done|]. split; [done|]. unfold dur. rewrite Hdu. lia.
Qed.

Lemma completed_duration_nonneg_witness :
  clock_monotone 0 scenario_b /\
  exists f, finish_ms (finish (mk_task 1 "T2" (Some 100) 100 0 None None) 30) = Some f /\
    0 <= dur (finish (mk_task 1 "T2" (Some 100) 100 0 None None) 30).
Proof.
  assert (Hm : clock_monotone 0 scenario_b) by (simpl; lia).
  split; [exact Hm|].
  destruct (completed_duration_nonneg 0 scenario_b Hm
              (finish (mk_task 1 "T2" (Some 100) 100 0 None None) 30)
              ltac:(vm_compute; left; reflexivity)) as (f & Hf & _ & Hd).
  exists f. split; [exact Hf|exact Hd].
Defined.

End Registry.

(** ** The Table expand decision ([Table._calculate_expand]) *)

Module Table.

(** The [expand] argument of [Table]: an explicit bool or ["auto"]. *)
Inductive expand_opt := ExpandBool (b : bool) | ExpandAuto.

(** [_calculate_expand] returns a bool, or an int target width in the
    medium band of responsive mode. *)
Inductive expand_result := RBool (b : bool) | RWidth (w : Z).

(** The theme's table settings: [table.auto_expand_threshold],
    [table.responsive_mode] and [table.responsive_breakpoints]. *)
Record table_theme := mk_table_theme {
  auto_expand_threshold : nat;
  responsive_mode : bool;
  bp_compact : Z;
  bp_medium : Z;
  bp_wide : Z
}.

Definition default_theme : table_theme := mk_table_theme 5 false 60 80 81.

(** The margin kept free in the medium band (the tests cap the width at
    [console.width - 4]). *)
Definition fixed_margin : Z := 4.

(** Modelled from the spec: Table._calculate_expand (section 4.3). The
    natural width of the table is measured by the rendering collaborator and
    enters as [natural_width]; [width] is the console width. Widths below
    [compact] never expand; widths in [compact, medium] get the capped
    natural width when the column count reaches the threshold; widths from
    [wide] on use the column-count threshold; otherwise the table keeps its
    natural width. An explicit bool always wins. *)
Definition calculate_expand (th : table_theme) (expand : expand_opt)
    (ncols : nat) (width natural_width : Z) : expand_result :=
  match expand with
  | ExpandBool b => RBool b
  | ExpandAuto =>
      let wide_table := Nat.leb (auto_expand_threshold th) ncols in
      if negb (responsive_mode th) then RBool wide_table
      else if width <? bp_compact th then RBool false
      else if width <=? bp_medium th then
        (if wide_table then RWidth (Z.min natural_width (width - fixed_margin))
         else RBool false)
      else if bp_wide th <=? width then RBool wide_table
      else RBool false
  end.

Example calc_narrow : calculate_expand default_theme ExpandAuto 3 80 30 = RBool false.
Proof. reflexivity. Qed.

Example calc_custom_breakpoints :
  calculate_expand (mk_table_theme 5 true 50 70 71) ExpandAuto 7 60 40 = RWidth 40.
Proof. reflexivity. Qed.

(** C7: with responsive mode off and [expand="auto"], the decision is
    [ncols >= threshold] (default threshold 5: 5 columns expand, 4 do not);
    an explicit bool is returned unchanged whatever the column count. *)
Theorem auto_expand_threshold_rule :
  (forall (thr : nat) (c m w : Z) (ncols : nat) (width nat_w : Z),
     calculate_expand (mk_table_theme thr false c m w) ExpandAuto ncols width nat_w =
       RBool (Nat.leb thr ncols)) /\
  auto_expand_threshold default_theme = 5%nat /\
  responsive_mode default_theme = false /\
  (forall width nat_w : Z,
     calculate_expand default_theme ExpandAuto 5 width nat_w = RBool true /\
     calculate_expand default_theme ExpandAuto 4 width nat_w = RBool false) /\
  (forall (th : table_theme) (b : bool) (ncols : nat) (width nat_w : Z),
     calculate_expand th (ExpandBool b) ncols width nat_w = RBool b).
Proof.
  split; [intros; reflexivity|]. split; [reflexivity|]. split; [reflexivity|].
  split; intros; [split|]; reflexivity.
Qed.

(** C8: with responsive mode on, ordered breakpoints
    ([compact <= medium < wide]) and a column count at
    or above the threshold: below [compact] no expansion; in
    [compact, medium] the target width is [min natural (width - 4)], so at
    most [width - 4]; from [wide] on the threshold rule applies. *)
Theorem responsive_breakpoints (th : table_theme) (ncols : nat) (nat_w : Z) :
  responsive_mode th = true ->
  (auto_expand_threshold th <= ncols)%nat ->
  bp_compact th <= bp_medium th < bp_wide th ->
  (forall width, width < bp_compact th ->
     calculate_expand th ExpandAuto ncols width nat_w = RBool false) /\
  (forall width, bp_compact th <= width <= bp_medium th ->
     calculate_expand th ExpandAuto ncols width nat_w =
       RWidth (Z.min nat_w (width - fixed_margin)) /\
     Z.min nat_w (width - fixed_margin) <= width - 4) /\
  (forall width, bp_wide th <= width ->
     calculate_expand th ExpandAuto ncols width nat_w =
       RBool (Nat.leb (auto_expand_threshold th) ncols) /\
     calculate_expand th ExpandAuto ncols width nat_w = RBool true).
Proof.
  intros Hresp Hthr Hmw. unfold calculate_expand. rewrite Hresp. simpl.
  assert (Hw : Nat.leb (auto_expand_threshold th) ncols = true)
    by (apply Nat.leb_le; exact Hthr).
  split; [|split].
  - intros width Hlt. apply Z.ltb_lt in Hlt. by rewrite Hlt.
  - intros width [Hc Hm].
    rewrite (proj2 (Z.ltb_ge _ _) Hc), (proj2 (Z.leb_le _ _) Hm), Hw.
    unfold fixed_margin. split; [reflexivity|lia].
  - intros width Hge.
    assert (E1 : (width <? bp_compact th) = false) by (apply Z.ltb_ge; lia).
    assert (E2 : (width <=? bp_medium th) = false) by (apply Z.leb_gt; lia).
    assert (E3 : (bp_wide th <=? width) = true) by (apply Z.leb_le; lia).
    rewrite E1, E2, E3, Hw. split; reflexivity.
Qed.

Lemma responsive_breakpoints_witness :
  calculate_expand (mk_table_theme 5 true 60 80 81) ExpandAuto 7 50 40 = RBool false /\
  calculate_expand (mk_table_theme 5 true 60 80 81) ExpandAuto 7 70 90 = RWidth 66 /\
  calculate_expand (mk_table_theme 5 true 60 80 81) ExpandAuto 7 120 40 = RBool true.
Proof.
  destruct (responsive_breakpoints (mk_table_theme 5 true 60 80 81) 7 40
              eq_refl ltac:(simpl; lia) ltac:(simpl; lia)) as (Hc & _ & Hw).
  destruct (responsive_breakpoints (mk_table_theme 5 true 60 80 81) 7 90
              eq_refl ltac:(simpl; lia) ltac:(simpl; lia)) as (_ & Hm & _).
  split; [apply Hc; simpl; lia|]. split.
  - rewrite (proj1 (Hm 70 ltac:(simpl; lia))). reflexivity.
  - exact (proj2 (Hw 120 ltac:(simpl; lia))).
Defined.

(** A table in auto mode with fewer columns than the threshold never
    expands and never gets a computed width, whatever the responsive mode,
    breakpoints and console width (the narrow tables of the demos). *)
Theorem narrow_table_never_expands (th : table_theme) (ncols : nat) (width nat_w : Z) :
  (ncols < auto_expand_threshold th)%nat ->
  calculate_expand th ExpandAuto ncols width nat_w = RBool false.
Proof.
  intros Hlt. unfold calculate_expand.
  assert (Hf : Nat.leb (auto_expand_threshold th) ncols = false)
    by (apply Nat.leb_gt; exact Hlt).
  rewrite Hf.
  destruct (responsive_mode th); simpl; [|reflexivity].
  destruct (width <? bp_compact th); [reflexivity|].
  destruct (width <=? bp_medium th); [reflexivity|].
  destruct (bp_wide th <=? width); reflexivity.
Qed.

Lemma narrow_table_never_expands_witness :
  calculate_expand (mk_table_theme 5 true 60 80 81) ExpandAuto 4 70 30 = RBool false /\
  calculate_expand (mk_table_theme 5 true 60 80 81) ExpandAuto 2 200 30 = RBool false.
Proof.
  split; apply narrow_table_never_expands; simpl; lia.
Defined.

(** A computed width is returned only in responsive mode, for a console
    width in the medium band and a column count at the threshold; it is
    never larger than the natural width nor than the console width minus
    the margin of 4. *)
Theorem computed_width_bounds (th : table_theme) (ncols : nat) (width nat_w x : Z) :
  calculate_expand th ExpandAuto ncols width nat_w = RWidth x ->
  responsive_mode th = true /\ bp_compact th <= width <= bp_medium th /\
  (auto_expand_threshold th <= ncols)%nat /\ x <= nat_w /\ x <= width - 4.
Proof.
  unfold calculate_expand.
  destruct (responsive_mode th); simpl; [|discriminate].
  destruct (width <? bp_compact th) eqn:E1; [discriminate|].
  destruct (width <=? bp_medium th) eqn:E2;
    [|destruct (bp_wide th <=? width); discriminate].
  destruct (Nat.leb (auto_expand_threshold th) ncols) eqn:E3; [|discriminate].
  intros Hx. injection Hx as <-.
  apply Z.ltb_ge in E1. apply Z.leb_le in E2. apply Nat.leb_le in E3.
  unfold fixed_margin. split_and!; auto; lia.
Qed.

Lemma computed_width_bounds_witness :
  calculate_expand (mk_table_theme 5 true 60 80 81) ExpandAuto 7 70 120 = RWidth 66 /\
  66 <= 70 - 4.
Proof.
  assert (H : calculate_expand (mk_table_theme 5 true 60 80 81) ExpandAuto 7 70 120 = RWidth 66)
    by reflexivity.
  split; [exact H|].
  exact (proj2 (proj2 (proj2 (proj2 (computed_width_bounds _ 7 70 120 66 H))))).
Defined.

End Table.

(** ** The default console ([get_console] / [reset_console]) *)

Module DefaultConsole.

(** A console instance: its object identity and the keyword arguments it
    was constructed with. *)
Record console := mk_console {
  obj_id : nat;
  kwargs : list (string * string)
}.

(** The module-level slot [_console] and the allocator of fresh objects. *)
Record console_state := mk_console_state {
  default_console : option console;
  next_obj : nat
}.

Definition console_init : console_state := mk_console_state None 0.

(** Modelled from the spec: chalkbox.core.console.get_console (section 9,
    pinned by tests/test_console.py): the first call constructs the console
    with its keyword arguments and stores it; later calls return the stored
    instance and ignore their arguments. *)
Definition get_console (kw : list (string * string)) (st : console_state)
    : console * console_state :=
  match default_console st with
  | Some c => (c, st)
  | None =>
      let c := mk_console (next_obj st) kw in
      (c, mk_console_state (Some c) (S (next_obj st)))
  end.

(** Modelled from the spec: chalkbox.core.console.reset_console: clears the
    stored instance. *)
Definition reset_console (st : console_state) : console_state :=
  mk_console_state None (next_obj st).

Fixpoint get_many (kws : list (list (string * string))) (st : console_state)
    : list console * console_state :=
  match kws with
  | [] => ([], st)
  | kw :: r =>
      let (c, st1) := get_console kw st in
      let (cs, st2) := get_many r st1 in
      (c :: cs, st2)
  end.

Inductive console_op := CGet (kw : list (string * string)) | CReset.

Definition console_step (st : console_state) (o : console_op) : console_state :=
  match o with
  | CGet kw => snd (get_console kw st)
  | CReset => reset_console st
  end.

Fixpoint console_run (ops : list console_op) (st : console_state) : console_state :=
  match ops with
  | [] => st
  | o :: r => console_run r (console_step st o)
  end.

Definition console_reachable (st : console_state) : Prop :=
  exists ops, st = console_run ops console_init.

(** The stored instance was allocated before the allocator's counter. *)
Definition console_wf (st : console_state) : Prop :=
  forall c, default_console st = Some c -> (obj_id c < next_obj st)%nat.

Lemma console_step_wf (st : console_state) (o : console_op) :
  console_wf st -> console_wf (console_step st o).
Proof.
  unfold console_wf. destruct st as [[c0|] n], o as [kw|]; simpl; intros H c Hc;
    try discriminate Hc.
  - by apply H.
  - injection Hc as <-. simpl. lia.
Qed.

Lemma console_reachable_wf (st : console_state) : console_reachable st -> console_wf st.
Proof.
  intros [ops ->]. assert (H0 : console_wf console_init) by (intros c Hc; discriminate Hc).
  revert H0. generalize console_init. induction ops as [|o r IH]; simpl; intros st0 H0.
  - exact H0.
  - apply IH, console_step_wf, H0.
Qed.

Lemma get_many_stored (kws : list (list (string * string))) (c : console) (n : nat) :
  get_many kws (mk_console_state (Some c) n) =
    (map (fun _ => c) kws, mk_console_state (Some c) n).
Proof. induction kws as [|kw r IH]; simpl; [done|]. by rewrite IH. Qed.

Example get_then_get :
  fst (get_console [("force_terminal", "False")]
         (snd (get_console [("force_terminal", "True")] console_init))) =
    mk_console 0 [("force_terminal", "True")].
Proof. reflexivity. Qed.

(** C9: from a reachable state, every later [get_console] call returns the
    instance returned by the first one (same object, built with the first
    call's arguments) and changes nothing; after [reset_console] the next
    [get_console] builds a distinct object with its own arguments. *)
Theorem get_console_singleton (st : console_state) :
  console_reachable st ->
  (forall (kw : list (string * string)) (kws : list (list (string * string))),
     let (c1, st1) := get_console kw st in
     Forall (eq c1) (fst (get_many kws st1)) /\ snd (get_many kws st1) = st1) /\
  (default_console st = None ->
     forall kw, kwargs (fst (get_console kw st)) = kw) /\
  (forall kw kw' : list (string * string),
     let (c1, st1) := get_console kw st in
     let c2 := fst (get_console kw' (reset_console st1)) in
     obj_id c2 <> obj_id c1 /\ kwargs c2 = kw').
Proof.
  intros Hr. pose proof (console_reachable_wf st Hr) as Hwf.
  destruct st as [[c0|] n]; split; [| split| |split].
  - intros kw kws. simpl. rewrite get_many_stored. simpl.
    split; [apply Forall_forall; intros x Hx; apply list_elem_of_In, in_map_iff in Hx;
            by destruct Hx as (? & <- & _)|done].
  - intros Hn. discriminate Hn.
  - intros kw kw'. simpl. pose proof (Hwf c0 eq_refl) as H. simpl in H.
    split; [lia|done].
  - intros kw kws. simpl. rewrite get_many_stored. simpl.
    split; [apply Forall_forall; intros x Hx; apply list_elem_of_In, in_map_iff in Hx;
            by destruct Hx as (? & <- & _)|done].
  - intros _ kw. done.
  - intros kw kw'. simpl. split; [lia|done].
Qed.

Lemma get_console_singleton_witness :
  fst (get_console [("force_terminal", "False")]
         (snd (get_console [("force_terminal", "True")] console_init))) =
    fst (get_console [("force_terminal", "True")] console_init) /\
  obj_id (fst (get_console [] (reset_console
            (snd (get_console [("force_terminal", "True")] console_init))))) <>
    obj_id (fst (get_console [("force_terminal", "True")] console_init)).
Proof.
  assert (Hr : console_reachable console_init) by (exists []; reflexivity).
  destruct (get_console_singleton console_init Hr) as (H1 & _ & H3).
  split.
  - specialize (H1 [("force_terminal", "True")] [[("force_terminal", "False")]]).
    simpl in H1. destruct H1 as [Hf _]. inversion Hf. simpl. done.
  - exact (proj1 (H3 [("force_terminal", "True")] [])).
Defined.

End DefaultConsole.

(** ** The auto-playing carousel of demos/components/table_live_responsive.py *)

Module Carousel.

(** Clock readings ([time.time()]) are taken in integral milliseconds. *)
Definition DEMO_DURATION_IN_SECONDS : Z := 10.
Definition demo_duration_ms : Z := DEMO_DURATION_IN_SECONDS * 1000.

(** [DEMO_SCENARIOS], by name (the second components are render functions). *)
Definition DEMO_SCENARIOS : list string :=
  ["Compact (2 cols)"; "Medium (4 cols)"; "Wide (7 cols)"; "Live Updates"; "Comparison"].

Definition n_scenarios : Z := Z.of_nat (length DEMO_SCENARIOS).

(** Python list indexing: negative indices count from the end; [None] is
    the [IndexError]. *)
Definition py_index {A} (l : list A) (i : Z) : option A :=
  if 0 <=? i then nth_error l (Z.to_nat i)
  else if 0 <=? Z.of_nat (length l) + i then nth_error l (Z.to_nat (Z.of_nat (length l) + i))
  else None.

(** [CarouselState]. *)
Record carousel := mk_carousel {
  current_index : Z;
  start_time : option Z;
  started : bool;
  completed : bool
}.

Definition new_carousel : carousel := mk_carousel 0 None false false.

Definition start (now : Z) (st : carousel) : carousel :=
  mk_carousel (current_index st) (Some now) true (completed st).

Definition get_elapsed_time (now : Z) (st : carousel) : Z :=
  if negb (started st) then 0
  else match start_time st with None => 0 | Some t => now - t end.

Definition should_advance (now : Z) (st : carousel) : bool :=
  demo_duration_ms <=? get_elapsed_time now st.

Definition advance (now : Z) (st : carousel) : carousel :=
  let i := current_index st + 1 in
  if n_scenarios <=? i then
    mk_carousel (n_scenarios - 1) (start_time st) (started st) true
  else mk_carousel i (Some now) (started st) (completed st).

(** The state part of [create_demo_display]: advance when the time is up. *)
Definition display_tick (now : Z) (st : carousel) : carousel :=
  if should_advance now st then advance now st else st.

Inductive carousel_op := CStart (now : Z) | CTick (now : Z) | CAdvance (now : Z).

Definition carousel_step (st : carousel) (o : carousel_op) : carousel :=
  match o with
  | CStart n => start n st
  | CTick n => display_tick n st
  | CAdvance n => advance n st
  end.

Fixpoint carousel_run (ops : list carousel_op) (st : carousel) : carousel :=
  match ops with
  | [] => st
  | o :: r => carousel_run r (carousel_step st o)
  end.

(** [build_horizontal_stepper]: the status of each scenario. *)
Inductive step_status := Done | Current | Pending.

Definition stepper_status (current i : Z) : step_status :=
  if i <? current then Done else if i =? current then Current else Pending.

Fixpoint stepper_from {A} (current i : Z) (l : list A) : list (step_status * A) :=
  match l with
  | [] => []
  | x :: r => (stepper_status current i, x) :: stepper_from current (i + 1) r
  end.

Definition build_horizontal_stepper (current : Z) : list (step_status * string) :=
  stepper_from current 0 DEMO_SCENARIOS.

(** [seconds_remaining] of [build_header]: [max(0, int(10 - elapsed))],
    with [int] truncating toward zero. *)
Definition seconds_remaining (elapsed_ms : Z) : Z :=
  Z.max 0 (Z.quot (demo_duration_ms - elapsed_ms) 1000).

Lemma n_scenarios_eq : n_scenarios = 5.
Proof. reflexivity. Qed.

Definition carousel_inv (st : carousel) : Prop :=
  0 <= current_index st <= n_scenarios - 1 /\
  (completed st = true -> current_index st = n_scenarios - 1).

Lemma carousel_step_inv (st : carousel) (o : carousel_op) :
  carousel_inv st -> carousel_inv (carousel_step st o).
Proof.
  unfold carousel_inv. rewrite n_scenarios_eq. simpl. intros [Hb Hc].
  assert (Hadv : forall n, 0 <= current_index (advance n st) <= 4 /\
            (completed (advance n st) = true -> current_index (advance n st) = 4)).
  { intros n. unfold advance. rewrite n_scenarios_eq. simpl.
    destruct (5 <=? current_index st + 1) eqn:E; simpl.
    - split; [lia|done].
    - apply Z.leb_gt in E. split; [lia|]. intros H. specialize (Hc H). lia. }
  destruct o as [n|n|n]; simpl.
  - split; [exact Hb|exact Hc].
  - unfold display_tick. destruct (should_advance n st); [apply Hadv|split; assumption].
  - apply Hadv.
Qed.

Lemma carousel_run_inv (ops : list carousel_op) (st : carousel) :
  carousel_inv st -> carousel_inv (carousel_run ops st).
Proof.
  revert st. induction ops as [|o r IH]; intros st H; simpl; [exact H|].
  apply IH, carousel_step_inv, H.
Qed.

Lemma carousel_index_cases (st : carousel) :
  carousel_inv st ->
  current_index st = 0 \/ current_index st = 1 \/ current_index st = 2 \/
  current_index st = 3 \/ current_index st = 4.
Proof. unfold carousel_inv. rewrite n_scenarios_eq. lia. Qed.

(** Whatever sequence of [start], [create_demo_display] ticks and
    [advance] calls the carousel goes through, [current_index] stays within
    [0 .. len(DEMO_SCENARIOS) - 1], so [DEMO_SCENARIOS[current_index]] never
    raises and names the scenario at that position. *)
Theorem carousel_index_in_bounds (ops : list carousel_op) :
  let st := carousel_run ops new_carousel in
  0 <= current_index st <= n_scenarios - 1 /\
  exists name, py_index DEMO_SCENARIOS (current_index st) = Some name /\
               nth_error DEMO_SCENARIOS (Z.to_nat (current_index st)) = Some name.
Proof.
  intros st.
  assert (Hi : carousel_inv st).
  { apply carousel_run_inv. unfold carousel_inv. rewrite n_scenarios_eq. simpl.
    split; [lia|discriminate]. }
  split; [exact (proj1 Hi)|].
  destruct (carousel_index_cases st Hi) as [->|[->|[->|[->| ->]]]];
    eexists; split; reflexivity.
Qed.

(** Once [completed] is set it stays set under every further call, and the
    carousel then stays on the last scenario. *)
Theorem carousel_completed_sticky (ops : list carousel_op) (o : carousel_op) :
  completed (carousel_run ops new_carousel) = true ->
  completed (carousel_step (carousel_run ops new_carousel) o) = true /\
  current_index (carousel_run ops new_carousel) = n_scenarios - 1 /\
  current_index (carousel_step (carousel_run ops new_carousel) o) = n_scenarios - 1.
Proof.
  intros Hc.
  assert (H0 : carousel_inv new_carousel).
  { unfold carousel_inv. rewrite n_scenarios_eq. simpl. split; [lia|discriminate]. }
  pose proof (carousel_run_inv ops new_carousel H0) as Hi.
  pose proof (carousel_step_inv _ o Hi) as Hi'.
  assert (Hc' : completed (carousel_step (carousel_run ops new_carousel) o) = true).
  { destruct o as [n|n|n]; simpl; [exact Hc| |].
    - unfold display_tick. destruct (should_advance _ _); [|exact Hc].
      unfold advance. destruct (_ <=? _); simpl; [reflexivity|exact Hc].
    - unfold advance. destruct (_ <=? _); simpl; [reflexivity|exact Hc]. }
  split; [exact Hc'|]. split; [exact (proj2 Hi Hc)|exact (proj2 Hi' Hc')].
Qed.

Lemma carousel_completed_sticky_witness :
  completed (carousel_run [CStart 0; CAdvance 1; CAdvance 2; CAdvance 3; CAdvance 4;
                           CAdvance 5] new_carousel) = true /\
  completed (carousel_step (carousel_run [CStart 0; CAdvance 1; CAdvance 2; CAdvance 3;
                           CAdvance 4; CAdvance 5] new_carousel) (CTick 90000)) = true.
Proof.
  assert (Hc : completed (carousel_run [CStart 0; CAdvance 1; CAdvance 2; CAdvance 3;
                 CAdvance 4; CAdvance 5] new_carousel) = true) by reflexivity.
  split; [exact Hc|].
  exact (proj1 (carousel_completed_sticky _ (CTick 90000) Hc)).
Defined.

Lemma carousel_advances_from (ts : list Z) (k : nat) (st : carousel) :
  current_index st = Z.min (Z.of_nat k) (n_scenarios - 1) ->
  completed st = (n_scenarios <=? Z.of_nat k) ->
  current_index (carousel_run (map CAdvance ts) st) =
    Z.min (Z.of_nat (k + length ts)) (n_scenarios - 1) /\
  completed (carousel_run (map CAdvance ts) st) =
    (n_scenarios <=? Z.of_nat (k + length ts)).
Proof.
  rewrite n_scenarios_eq.
  revert k st. induction ts as [|n r IH]; intros k st Hi Hc; simpl.
  - rewrite Nat.add_0_r. by split.
  - replace (k + S (length r))%nat with (S k + length r)%nat by lia.
    apply IH.
    + unfold advance. rewrite n_scenarios_eq, Hi.
      destruct (5 <=? Z.min (Z.of_nat k) (5 - 1) + 1) eqn:E; simpl.
      * apply Z.leb_le in E. lia.
      * apply Z.leb_gt in E. lia.
    + unfold advance. rewrite n_scenarios_eq, Hi.
      destruct (5 <=? Z.min (Z.of_nat k) (5 - 1) + 1) eqn:E; simpl.
      * apply Z.leb_le in E. symmetry. apply Z.leb_le. lia.
      * apply Z.leb_gt in E. rewrite Hc.
        assert (E1 : (5 <=? Z.of_nat k) = false) by (apply Z.leb_gt; lia).
        assert (E2 : (5 <=? Z.of_nat (S k)) = false) by (apply Z.leb_gt; lia).
        by rewrite E1, E2.
Qed.

(** From a fresh carousel, after [k] calls of [advance] the carousel shows
    scenario [min(k, len - 1)], and it is completed exactly when [k] reached
    [len(DEMO_SCENARIOS)]: the last scenario is shown before completion. *)
Theorem carousel_advance_count (ts : list Z) :
  let st := carousel_run (map CAdvance ts) new_carousel in
  current_index st = Z.min (Z.of_nat (length ts)) (n_scenarios - 1) /\
  completed st = (n_scenarios <=? Z.of_nat (length ts)).
Proof.
  exact (carousel_advances_from ts 0 new_carousel eq_refl eq_refl).
Qed.

(** Before [start], [create_demo_display] never advances: the elapsed time
    is 0, below the demo duration. *)
Theorem carousel_no_advance_before_start (ns : list Z) :
  carousel_run (map CTick ns) new_carousel = new_carousel.
Proof.
  induction ns as [|n r IH]; simpl; [reflexivity|]. exact IH.
Qed.

Lemma stepper_from_nth {A} (current i0 : Z) (l : list A) (k : nat) :
  nth_error (stepper_from current i0 l) k =
    option_map (fun x => (stepper_status current (i0 + Z.of_nat k), x)) (nth_error l k).
Proof.
  revert i0 k. induction l as [|x r IH]; intros i0 k; [by destruct k|].
  destruct k as [|k]; simpl.
  - by rewrite Z.add_0_r.
  - rewrite IH. do 3 f_equal. lia.
Qed.

(** The stepper and the panel agree: for every reachable carousel the
    stepper has one entry per scenario, in order; the scenarios before
    [current_index] are marked done, the one at [current_index] is the only
    current one and is the scenario the panel shows, and the scenarios after
    it are pending. *)
Theorem stepper_matches_panel (ops : list carousel_op) :
  let i := current_index (carousel_run ops new_carousel) in
  exists name,
    py_index DEMO_SCENARIOS i = Some name /\
    length (build_horizontal_stepper i) = length DEMO_SCENARIOS /\
    (forall (k : nat) n, Z.of_nat k < i -> nth_error DEMO_SCENARIOS k = Some n ->
       nth_error (build_horizontal_stepper i) k = Some (Done, n)) /\
    nth_error (build_horizontal_stepper i) (Z.to_nat i) = Some (Current, name) /\
    (forall (k : nat) n, i < Z.of_nat k -> nth_error DEMO_SCENARIOS k = Some n ->
       nth_error (build_horizontal_stepper i) k = Some (Pending, n)) /\
    List.filter (fun p => match fst p with Current => true | _ => false end)
           (build_horizontal_stepper i) = [(Current, name)].
Proof.
  intros i.
  assert (Hi : carousel_inv (carousel_run ops new_carousel)).
  { apply carousel_run_inv. unfold carousel_inv. rewrite n_scenarios_eq. simpl.
    split; [lia|discriminate]. }
  assert (Hdone : forall (k : nat) n, Z.of_nat k < i -> nth_error DEMO_SCENARIOS k = Some n ->
            nth_error (build_horizontal_stepper i) k = Some (Done, n)).
  { intros k n Hk Hn. unfold build_horizontal_stepper. rewrite stepper_from_nth, Hn.
    simpl. rewrite Z.add_0_l. unfold stepper_status. by rewrite (proj2 (Z.ltb_lt _ _) Hk). }
  assert (Hpend : forall (k : nat) n, i < Z.of_nat k -> nth_error DEMO_SCENARIOS k = Some n ->
            nth_error (build_horizontal_stepper i) k = Some (Pending, n)).
  { intros k n Hk Hn. unfold build_horizontal_stepper. rewrite stepper_from_nth, Hn.
    simpl. rewrite Z.add_0_l. unfold stepper_status.
    assert (E1 : (Z.of_nat k <? i) = false) by (apply Z.ltb_ge; lia).
    assert (E2 : (Z.of_nat k =? i) = false) by (apply Z.eqb_neq; lia).
    by rewrite E1, E2. }
  assert (Hc5 : i = 0 \/ i = 1 \/ i = 2 \/ i = 3 \/ i = 4)
    by exact (carousel_index_cases _ Hi).
  clearbody i.
  destruct Hc5 as [Hc|[Hc|[Hc|[Hc|Hc]]]]; subst i; eexists; split_and!;
    solve [reflexivity | exact Hdone | exact Hpend].
Qed.

(** The countdown of [build_header] stays within [0 .. 10] seconds for a
    non-negative elapsed time, and shows 0 once the duration has passed. *)
Theorem seconds_remaining_bounds (elapsed_ms : Z) :
  0 <= elapsed_ms ->
  0 <= seconds_remaining elapsed_ms <= DEMO_DURATION_IN_SECONDS /\
  (demo_duration_ms <= elapsed_ms -> seconds_remaining elapsed_ms = 0).
Proof.
  intros He. unfold seconds_remaining, demo_duration_ms, DEMO_DURATION_IN_SECONDS.
  change (10 * 1000) with 10000.
  pose proof (Z.quot_le_mono (10000 - elapsed_ms) 10000 1000 ltac:(lia) ltac:(lia)) as Hq.
  change (10000 ÷ 1000) with 10 in Hq.
  split; [lia|].
  intros Hd.
  pose proof (Z.quot_le_mono (10000 - elapsed_ms) 0 1000 ltac:(lia) ltac:(lia)) as Hq0.
  change (0 ÷ 1000) with 0 in Hq0. lia.
Qed.

Lemma seconds_remaining_bounds_witness :
  seconds_remaining 2500 = 7 /\ 0 <= seconds_remaining 2500 <= DEMO_DURATION_IN_SECONDS.
Proof.
  split; [reflexivity|]. exact (proj1 (seconds_remaining_bounds 2500 ltac:(lia))).
Defined.

End Carousel.
